(** * commute-map front end: a shallow embedding of the React components

    The front end is five source files: [App.jsx] (the router),
    [Home.jsx] (the root component: city-list fetch, selection state,
    inline overlay), [ThumbnailGrid.jsx], [Carousel.jsx] and the
    stand-alone [MapView.jsx].  Component state ([useState]) becomes a
    record, an event handler becomes a function on that record, an effect
    ([useEffect]) becomes a function run after the state it depends on
    changed, and what a component returns becomes a value of a small
    element type that keeps the parts the properties talk about.

    City identifiers are JavaScript strings.  A registry written as an
    object literal ([cityNames], [cityDetails]) is a finite map over its
    own keys; reading it with [registry[key]] finds an own key first, then
    the members every object literal inherits from [Object.prototype], and
    yields [undefined] only when both miss ([Js.get]). *)

From stdpp Require Import base decidable option list strings gmap pretty.

Open Scope string_scope.
Open Scope list_scope.

(** ** The JavaScript operations the components use *)

Module Js.

(** A value that is either a string or [null]/[undefined]. *)
Definition value := option string.

(** Truthiness as tested by [!x], [x && e] and [x || e]: [null],
    [undefined] and the empty string are falsy, every other string is
    truthy. *)
Definition truthy (v : value) : bool :=
  match v with
  | Some s => negb (bool_decide (s = ""))
  | None => false
  end.

(** What reading a member of a registry can yield: [undefined], a string
    of the registry, or the member of that name inherited from
    [Object.prototype] (a function, or for [__proto__] the prototype
    object itself). *)
Inductive property :=
| Undefined
| Text (s : string)
| Inherited (name : string).

(** The names every object literal inherits from [Object.prototype]. *)
Definition Object_prototype : list string :=
  [ "constructor"; "__defineGetter__"; "__defineSetter__"; "hasOwnProperty";
    "__lookupGetter__"; "__lookupSetter__"; "isPrototypeOf";
    "propertyIsEnumerable"; "toString"; "valueOf"; "__proto__";
    "toLocaleString" ].

(** [obj[key]] for an object literal with string members. *)
Definition get (obj : gmap string string) (key : string) : property :=
  match obj !! key with
  | Some s => Text s
  | None => if bool_decide (key ∈ Object_prototype) then Inherited key
            else Undefined
  end.

(** Truthiness of a member: functions and objects are truthy. *)
Definition property_truthy (p : property) : bool :=
  match p with
  | Undefined => false
  | Text s => negb (bool_decide (s = ""))
  | Inherited _ => true
  end.

(** [a || b] where [b] is a string. *)
Definition or_else (a : property) (b : string) : property :=
  if property_truthy a then a else Text b.

(** What React puts on the page for a member used as a child of an
    element: a string is shown as it is, [undefined] and a function show
    nothing, an object makes the render throw. *)
Inductive Shown :=
| Shows (text : string)
| Throws.

Definition child (p : property) : Shown :=
  match p with
  | Undefined => Shows ""
  | Text s => Shows s
  | Inherited name =>
      if bool_decide (name = "__proto__") then Throws else Shows ""
  end.

(** [Set.prototype.add]: a set remembers insertion order and ignores a
    value it already holds. *)
Definition Set_add (s : list string) (x : string) : list string :=
  if bool_decide (x ∈ s) then s else s ++ [x].

(** [[...new Set(xs)]]: the elements are added left to right to an empty
    set, and spreading the set lists them in insertion order. *)
Definition Set_spread (xs : list string) : list string :=
  foldl Set_add [] xs.

(** [xs.slice(0, n)]. *)
Definition slice0 (n : nat) (xs : list string) : list string := take n xs.

End Js.

(** ** The registries

    [cityNames] is written out three times in the sources
    ([ThumbnailGrid.jsx], [Carousel.jsx], [Home.jsx]) with the same
    eleven entries; [cityDetails] is local to [Home.jsx]. *)

Definition cityNames : gmap string string :=
  list_to_map
    [ ("leeds1", "Leeds – Train Station");
      ("leeds2", "Leeds – Beeston");
      ("leeds3", "Leeds – Stourton");
      ("leeds4", "Leeds – Burley");
      ("london1", "London – Charing Cross");
      ("london2", "London – Islington");
      ("london3", "London – Hackney");
      ("london4", "London – Islington");
      ("london5", "London – Canning Town");
      ("london6", "London – Seven Sisters");
      ("london7", "London – Willesden") ].

Definition cityDetails : gmap string string :=
  list_to_map
    [ ("leeds1", "Specific text 1");
      ("leeds2", "Specific text 2");
      ("leeds3", "Specific text 3");
      ("leeds4", "Specific text 4");
      ("london1", "Specific text 5");
      ("london2", "Specific text 6");
      ("london3", "Specific text 7");
      ("london4", "Specific text 8");
      ("london5", "Specific text 9");
      ("london6", "Specific text 10");
      ("london7", "Specific text 11") ].

(** ** Heatmap embeds

    Grid and carousel render one embed per city: an iframe whose [src] is
    built from the identifier, under a hover label
    [cityNames[city] || city]. *)

Record Embed := {
  embed_key : string;
  embed_src : string;
  embed_alt : string;
  embed_label : Js.property
}.

Definition heatmap_src (city : string) : string :=
  "/static/preprocessing/" +:+ city +:+ "_heatmap.html".

Definition embed (city : string) : Embed :=
  {| embed_key := city;
     embed_src := heatmap_src city;
     embed_alt := city +:+ " map";
     embed_label := Js.or_else (Js.get cityNames city) city |}.

(** ** ThumbnailGrid.jsx *)

Module ThumbnailGrid.

(** [cities.map((city) => ...)]: one embed per entry, in order. *)
Definition render (cities : list string) : list Embed := embed <$> cities.

End ThumbnailGrid.

(** ** Carousel.jsx *)

Module Carousel.

(** The literals spread after [...cities] in the effect. *)
Definition fallback : list string := ["leeds1"; "leeds2"; "london1"; "london2"].

Record State := { displayedCities : list string }.

(** [useState([])]. *)
Definition init : State := {| displayedCities := [] |}.

(** The body of the effect that depends on [cities] and
    [selectedCity]. *)
Definition effect (cities : list string) (selectedCity : string) (st : State) : State :=
  let allCities := cities ++ fallback in
  let filteredCities := filter (λ city, city ≠ selectedCity) allCities in
  let finalCities := Js.slice0 8 (Js.Set_spread filteredCities) in
  {| displayedCities := finalCities |}.

(** The strip the component shows once the effect has run for the
    current props. *)
Definition displayed (cities : list string) (selectedCity : string) : list string :=
  displayedCities (effect cities selectedCity init).

Definition render (st : State) : list Embed := embed <$> displayedCities st.

(** The width given to the strip, in pixels:
    [displayedCities.length * 150]. *)
Definition strip_width (st : State) : nat := length (displayedCities st) * 150.

(** The subset as the specification words it: concatenate, drop the
    selection, keep the first occurrence of every identifier, keep the
    first eight. *)
Fixpoint keep_first_occurrences (xs : list string) : list string :=
  match xs with
  | [] => []
  | x :: rest => x :: filter (λ y, y ≠ x) (keep_first_occurrences rest)
  end.

Definition spec_subset (cities : list string) (selectedCity : string) : list string :=
  take 8 (keep_first_occurrences
            (filter (λ city, city ≠ selectedCity) (cities ++ fallback))).

End Carousel.

(** ** Home.jsx *)

Module Home.

(** *** Component state and its surroundings

    The four [useState] cells of [Home], and around them what the
    handlers reach: the router's location (the target of the last
    [navigate]), the console, and the requests sent.  [exiting] is the
    bookkeeping of [AnimatePresence]: while an element taken from under it
    is still animating out, it holds the callback it was handed by the
    render in which that exit began, that is, the value [isClosing] had
    in that render. *)

Record State := {
  cities : list string;
  selectedCity : Js.value;
  isMapVisible : bool;
  isClosing : bool
}.

Record World := {
  state : State;
  location : string;
  console : list (list string);
  requests : list string;
  exiting : option bool
}.

(** A handler is a sequence of setter calls; [w ▷ f ▷ g] runs [f], then
    [g]. *)
Notation "w ▷ f" := (f w) (at level 45, left associativity, only parsing).

Definition with_state (f : State → State) (w : World) : World :=
  {| state := f (state w); location := location w;
     console := console w; requests := requests w; exiting := exiting w |}.

Definition setCities (v : list string) : World → World :=
  with_state (λ s, {| cities := v; selectedCity := selectedCity s;
                      isMapVisible := isMapVisible s; isClosing := isClosing s |}).

Definition setSelectedCity (v : Js.value) : World → World :=
  with_state (λ s, {| cities := cities s; selectedCity := v;
                      isMapVisible := isMapVisible s; isClosing := isClosing s |}).

Definition setIsMapVisible (v : bool) : World → World :=
  with_state (λ s, {| cities := cities s; selectedCity := selectedCity s;
                      isMapVisible := v; isClosing := isClosing s |}).

Definition setIsClosing (v : bool) : World → World :=
  with_state (λ s, {| cities := cities s; selectedCity := selectedCity s;
                      isMapVisible := isMapVisible s; isClosing := v |}).

Definition navigate (to : string) (w : World) : World :=
  {| state := state w; location := to;
     console := console w; requests := requests w; exiting := exiting w |}.

Definition console_error (args : list string) (w : World) : World :=
  {| state := state w; location := location w;
     console := console w ++ [args]; requests := requests w;
     exiting := exiting w |}.

Definition send_request (url : string) (w : World) : World :=
  {| state := state w; location := location w;
     console := console w; requests := requests w ++ [url];
     exiting := exiting w |}.

Definition set_exiting (v : option bool) (w : World) : World :=
  {| state := state w; location := location w;
     console := console w; requests := requests w; exiting := v |}.

(** The component as first rendered under the router at [pathname]:
    [useState([])], [useState(null)], [useState(false)],
    [useState(false)].  Nothing in [Home] reads the location. *)
Definition init (pathname : string) : World :=
  {| state := {| cities := []; selectedCity := None;
                 isMapVisible := false; isClosing := false |};
     location := pathname; console := []; requests := []; exiting := None |}.

(** *** The selection handlers *)

Definition handleSelect (city : string) (w : World) : World :=
  if bool_decide (selectedCity (state w) = Some city) then
    w ▷ setIsClosing true ▷ setIsMapVisible false
  else
    w ▷ setSelectedCity (Some city) ▷ setIsMapVisible true
      ▷ setIsClosing false ▷ navigate ("/map/" +:+ city).

(** The [onExitComplete] callback handed to [AnimatePresence].  Every
    render builds it anew, around the value [isClosing] has in that
    render; [onExitComplete_in b] is the callback of a render in which
    [isClosing] was [b], run on the world as it is when it is called. *)
Definition onExitComplete_in (isClosing_then : bool) (w : World) : World :=
  if isClosing_then then
    w ▷ setSelectedCity None ▷ navigate "/"
  else w.

(** The callback of the current render. *)
Definition onExitComplete (w : World) : World :=
  onExitComplete_in (isClosing (state w)) w.

(** What can happen to a mounted [Home] after the fetch has settled: a
    click that reaches [handleSelect] (from the grid, the carousel or the
    magnifier of the inline map view), or the end of the exit
    animations in progress.  A click is taken to be dispatched from the
    current render, so the handler compares with the current
    selection. *)
Inductive Event :=
| Select (city : string)
| ExitComplete.

(** The path [handleSelect] and [onExitComplete] navigate to for a given
    selection. *)
Definition route_of (selection : Js.value) : string :=
  match selection with
  | Some city => "/map/" +:+ city
  | None => "/"
  end.

(** *** What [Home] returns *)

(** The element keyed by the selected city: the inline map view on the
    left, the heading and description on the right, the carousel under
    them. *)
Record Overlay := {
  overlay_key : string;
  map_src : string;
  map_title : string;
  heading : Js.property;
  details : Js.property;
  carousel : list Embed
}.

Definition overlay (cities : list string) (selectedCity : string) : Overlay :=
  {| overlay_key := selectedCity;
     map_src := heatmap_src selectedCity;
     map_title := selectedCity +:+ " heatmap";
     heading := Js.get cityNames selectedCity;
     details := Js.or_else (Js.get cityDetails selectedCity)
                  "No detailed information available.";
     carousel := Carousel.render
                   (Carousel.effect cities selectedCity Carousel.init) |}.

(** [AnimatePresence] with the child it is given, if any. *)
Inductive Presence := AnimatePresence (child : option Overlay).

Record View := {
  grid : list Embed;
  presence : option Presence
}.

(** [{selectedCity && (<AnimatePresence> {isMapVisible && selectedCity
    && (<motion.div key={selectedCity}> ...)} </AnimatePresence>)}]. *)
Definition render (w : World) : View :=
  let s := state w in
  {| grid := ThumbnailGrid.render (cities s);
     presence :=
       match selectedCity s with
       | Some city =>
           if Js.truthy (selectedCity s) then
             Some (AnimatePresence
                     (if isMapVisible s && Js.truthy (selectedCity s)
                      then Some (overlay (cities s) city)
                      else None))
           else None
       | None => None
       end |}.

(** The overlay is open when the keyed element is rendered. *)
Definition open_overlay (v : View) : option Overlay :=
  match presence v with
  | Some (AnimatePresence child) => child
  | None => None
  end.

(** From one render to the next React keeps the keyed element mounted
    only when an element with the same key is rendered again; otherwise
    the old element is unmounted and the new one, if any, is mounted
    ([key={selectedCity} // Ensures re-mount for exit animation]). *)
Definition frame_kept (before after : View) : bool :=
  match open_overlay before, open_overlay after with
  | Some o, Some o' => bool_decide (overlay_key o = overlay_key o')
  | _, _ => false
  end.

(** What [AnimatePresence] does when [Home] has rendered again.  If it is
    no longer rendered itself, nothing is left to animate or to call back.
    If the keyed element it had is gone or replaced, that element starts
    its exit, and the callback to run at the end is the one of this
    render.  Otherwise nothing changes. *)
Definition commit (before after : World) : World :=
  match presence (render after) with
  | None => set_exiting None after
  | Some _ =>
      match open_overlay (render before) with
      | Some o =>
          if frame_kept (render before) (render after) then after
          else set_exiting (Some (isClosing (state after))) after
      | None => after
      end
  end.

(** A click runs the handler and renders again.  The end of the exits in
    progress runs the callback [AnimatePresence] holds, if it holds one;
    without an exit in progress there is nothing to complete. *)
Definition step (w : World) (ev : Event) : World :=
  match ev with
  | Select city => commit w (handleSelect city w)
  | ExitComplete =>
      match exiting w with
      | Some isClosing_then =>
          commit w (onExitComplete_in isClosing_then (set_exiting None w))
      | None => w
      end
  end.

Definition run (w : World) (evs : list Event) : World := foldl step w evs.

(** *** The city-list fetch *)

(** How the request to [/cities] settles.  A body either fails to parse
    ([res.json()] rejects with the parser's message) or parses to a
    value, of which the effect reads [data.cities] and nothing else:
    [DataNull] is the body [null], on which that read throws;
    [DataObject None] is any other value whose [cities] member is missing
    or falsy, so that [|| []] applies ([{}], [[]], [5],
    [{"cities": null}]); [DataObject (Some l)] is an object whose
    [cities] member is the array of identifiers [l].  A [cities] member
    that is truthy and not an array of strings is not covered. *)
Inductive Data :=
| DataNull
| DataObject (data_cities : option (list string)).

Inductive Body :=
| Unparseable (msg : string)
| Parsed (data : Data).

Record Response := { status : nat; body : Body }.

Inductive Outcome :=
| NetworkError (msg : string)
| Responded (res : Response).

(** [res.ok]: the status is in the range 200-299. *)
Definition ok (res : Response) : bool :=
  bool_decide (200 ≤ status res)%nat && bool_decide (status res ≤ 299)%nat.

Record Error := { message : string }.

(** A settled promise. *)
Inductive Settled (A : Type) :=
| Fulfilled (a : A)
| Rejected (err : Error).
Arguments Fulfilled {A} a.
Arguments Rejected {A} err.

(** A promise whose callbacks act on the world. *)
Definition Promise (A : Type) : Type := World → Settled A * World.

Definition resolve {A} (a : A) : Promise A := λ w, (Fulfilled a, w).
Definition throw {A} (err : Error) : Promise A := λ w, (Rejected err, w).

(** [p.then(f)]: [f] runs on fulfilment, a rejection passes through. *)
Definition then_ {A B} (p : Promise A) (f : A → Promise B) : Promise B :=
  λ w, match p w with
       | (Fulfilled a, w') => f a w'
       | (Rejected err, w') => (Rejected err, w')
       end.

(** [p.catch(h)]: [h] runs on rejection, a fulfilment passes through. *)
Definition catch_ {A} (p : Promise A) (h : Error → Promise A) : Promise A :=
  λ w, match p w with
       | (Fulfilled a, w') => (Fulfilled a, w')
       | (Rejected err, w') => h err w'
       end.

(** A callback that only acts on the world and returns [undefined]. *)
Definition act (f : World → World) : Promise unit := λ w, (Fulfilled tt, f w).

Definition cities_url : string := "http://localhost:8000/cities".

Definition fetch (url : string) (o : Outcome) : Promise Response :=
  λ w, (match o with
        | NetworkError msg => Rejected {| message := msg |}
        | Responded res => Fulfilled res
        end, send_request url w).

Definition json (res : Response) : Promise Data :=
  match body res with
  | Unparseable msg => throw {| message := msg |}
  | Parsed data => resolve data
  end.

(** The effect with the empty dependency list: it runs once, after the
    first render. *)
Definition fetch_effect (o : Outcome) : Promise unit :=
  catch_
    (then_
       (then_ (fetch cities_url o)
          (λ res,
             if negb (ok res) then
               throw {| message := "HTTP error! status: " +:+ pretty (status res) |}
             else json res))
       (λ data,
          match data with
          | DataNull =>
              throw {| message :=
                "Cannot read properties of null (reading 'cities')" |}
          | DataObject data_cities => act (setCities (default [] data_cities))
          end))
    (λ err, act (console_error ["Error fetching cities:"; message err])).

(** [Home] mounted at [pathname], after the request has settled as
    [o]. *)
Definition mount (pathname : string) (o : Outcome) : Settled unit * World :=
  fetch_effect o (init pathname).

(** The ways the fetch fails: no response, a status outside 200-299, a
    body that does not parse, a body that is [null]. *)
Definition fetch_fails (o : Outcome) : bool :=
  match o with
  | NetworkError _ => true
  | Responded res =>
      negb (ok res)
      || match body res with
         | Unparseable _ => true
         | Parsed DataNull => true
         | Parsed (DataObject _) => false
         end
  end.

End Home.

(** ** MapView.jsx

    The stand-alone view reads the [city] route parameter with
    [useParams]. *)

Module MapView.

Inductive Element :=
| ErrorMessage (text : string)
| Frame (src title : string).

Definition render (city : Js.value) : Element :=
  match city with
  | Some c =>
      if negb (Js.truthy city) then
        ErrorMessage "Error: No city parameter provided."
      else Frame (heatmap_src c) (c +:+ " heatmap")
  | None => ErrorMessage "Error: No city parameter provided."
  end.

End MapView.

(** ** App.jsx *)

Module App.

(** The components a route can mount.  [App.jsx] imports [Home] alone;
    its import of [MapView] is commented out. *)
Inductive Component := HomeComponent.

(** [<Route path="/*" element={<Home />} />]. *)
Definition routes : list (string * Component) := [("/*", HomeComponent)].

(** Route matching, for the patterns [App] uses: the splat pattern
    ["/*"] matches every pathname; any other pattern is matched
    literally. *)
Definition matches (pattern pathname : string) : bool :=
  if bool_decide (pattern = "/*") then true
  else bool_decide (pattern = pathname).

Definition route (pathname : string) : option Component :=
  snd <$> find (λ r, matches (fst r) pathname) routes.

(** What the page shows once it is loaded at [pathname]. *)
Inductive Page :=
| HomePage (v : Home.View)
| MapViewPage (e : MapView.Element)
| Blank.

Definition page (pathname : string) : Page :=
  match route pathname with
  | Some HomeComponent => HomePage (Home.render (Home.init pathname))
  | None => Blank
  end.

(** The state the application starts in when loaded at [pathname]. *)
Definition load (pathname : string) : option Home.World :=
  match route pathname with
  | Some HomeComponent => Some (Home.init pathname)
  | None => None
  end.

End App.

(** ** vite.config.js *)

Module Vite.

Record ProxyRule := {
  target : string;
  changeOrigin : bool;
  rewrite : string → string
}.

Record Server := { proxy : list (string * ProxyRule) }.

(** The [server] member of the configuration returned for [command]: the
    proxy table when serving, [undefined] when building. *)
Definition server (command : string) : option Server :=
  if bool_decide (command = "serve") then
    Some {| proxy := [("/static/preprocessing",
                       {| target := "http://localhost:8000";
                          changeOrigin := true;
                          rewrite := λ path, path |})] |}
  else None.

(** Where the development server sends a request for [path]: the first
    rule whose key is a prefix of the path forwards it to its target, with
    the path as rewritten by the rule; without a rule, or without a
    [server] member, the request is not forwarded. *)
Definition forward (srv : option Server) (path : string) : option string :=
  match srv with
  | Some cfg =>
      (λ r, target r.2 +:+ rewrite r.2 path)
        <$> find (λ r, String.prefix r.1 path) (proxy cfg)
  | None => None
  end.

End Vite.

(** * Properties *)

(** ** The carousel subset *)

Section CarouselFacts.
Import Carousel.

Lemma keep_first_occurrences_sublist xs :
  keep_first_occurrences xs `sublist_of` xs.
Proof.
  induction xs as [|x xs IH]; simpl; [constructor|].
  apply sublist_skip. etrans; [apply sublist_filter | exact IH].
Qed.

Lemma elem_of_keep_first_occurrences x xs :
  x ∈ keep_first_occurrences xs ↔ x ∈ xs.
Proof.
  induction xs as [|y xs IH]; simpl; [done|].
  rewrite !elem_of_cons, list_elem_of_filter, IH.
  destruct (decide (x = y)); tauto.
Qed.

Lemma keep_first_occurrences_NoDup xs : NoDup (keep_first_occurrences xs).
Proof.
  induction xs as [|x xs IH]; simpl; constructor.
  - rewrite list_elem_of_filter. by intros [Hne _].
  - by apply NoDup_filter.
Qed.

(** Adding the elements of [xs] to a set that already lists [acc] appends
    the first occurrences in [xs] of what [acc] does not hold. *)
Lemma foldl_Set_add acc xs :
  foldl Js.Set_add acc xs
  = acc ++ filter (λ y, y ∉ acc) (keep_first_occurrences xs).
Proof.
  revert acc. induction xs as [|x xs IH]; intros acc; simpl.
  - by rewrite app_nil_r.
  - rewrite IH. unfold Js.Set_add. case_bool_decide as Hx.
    + rewrite filter_cons_False by (by intros Hn).
      rewrite list_filter_filter. f_equal.
      apply list_filter_iff. intros y.
      split; [intros Hy; split; [done | by intros ->] | by intros [? _]].
    + rewrite filter_cons_True by done.
      rewrite <- app_assoc. simpl. do 2 f_equal.
      rewrite list_filter_filter. apply list_filter_iff. intros y.
      rewrite elem_of_app, list_elem_of_singleton. tauto.
Qed.

Lemma Set_spread_keep_first xs : Js.Set_spread xs = keep_first_occurrences xs.
Proof.
  unfold Js.Set_spread. rewrite foldl_Set_add. simpl.
  induction (keep_first_occurrences xs) as [|y ys IH]; [done|].
  rewrite filter_cons_True by apply not_elem_of_nil. by f_equal.
Qed.

Lemma keep_first_occurrences_app xs ys :
  keep_first_occurrences (xs ++ ys)
  = keep_first_occurrences xs
    ++ filter (λ y, y ∉ xs) (keep_first_occurrences ys).
Proof.
  induction xs as [|x xs IH]; simpl.
  - induction (keep_first_occurrences ys) as [|y l IHl]; [done|].
    rewrite filter_cons_True by apply not_elem_of_nil. by f_equal.
  - rewrite IH, filter_app, list_filter_filter. do 3 f_equal.
    apply list_filter_iff. intros y. rewrite elem_of_cons. tauto.
Qed.

End CarouselFacts.

Section CarouselClaims.
Import Carousel.

(** The subset splits into a part taken from the fetched list and a part
    taken from the fallback literals that the fetched list does not
    already provide. *)
Lemma displayed_split cities selectedCity :
  displayed cities selectedCity
  = take 8 (keep_first_occurrences (filter (λ c, c ≠ selectedCity) cities))
    ++ take (8 - length (keep_first_occurrences
                           (filter (λ c, c ≠ selectedCity) cities)))
         (filter (λ c, c ∉ filter (λ c, c ≠ selectedCity) cities)
            (keep_first_occurrences
               (filter (λ c, c ≠ selectedCity) fallback))).
Proof.
  unfold displayed, effect, Js.slice0. simpl.
  by rewrite Set_spread_keep_first, filter_app,
    keep_first_occurrences_app, take_app.
Qed.

Lemma displayed_keep_first cities selectedCity :
  displayed cities selectedCity
  = take 8 (keep_first_occurrences
              (filter (λ c, c ≠ selectedCity) (cities ++ fallback))).
Proof.
  unfold displayed, effect, Js.slice0. simpl.
  by rewrite Set_spread_keep_first.
Qed.

(** C1: for every city list and selected city, the displayed subset is
    the city list followed by the fallback list, without the entries
    equal to the selected city, reduced to first occurrences and cut to
    the first eight entries. *)
Theorem C1_displayed_is_spec_subset cities selectedCity :
  displayed cities selectedCity = spec_subset cities selectedCity.
Proof.
  unfold spec_subset. apply displayed_keep_first.
Qed.

(** C2: the displayed subset has at most eight entries, no identifier
    twice, and never the selected identifier. *)
Theorem C2_displayed_bounded_nodup_unselected cities selectedCity :
  (length (displayed cities selectedCity) ≤ 8)%nat
  ∧ NoDup (displayed cities selectedCity)
  ∧ selectedCity ∉ displayed cities selectedCity.
Proof.
  rewrite displayed_keep_first.
  split; [|split].
  - rewrite length_take. lia.
  - eapply sublist_NoDup; [|apply sublist_take].
    apply keep_first_occurrences_NoDup.
  - intros Hin. eapply elem_of_sublist in Hin; [|apply sublist_take].
    apply elem_of_keep_first_occurrences, list_elem_of_filter in Hin.
    by destruct Hin as [Hne _].
Qed.

(** C8: for the city list ["leeds1"; "london3"] with "leeds1" selected
    the subset is ["london3"; "leeds2"; "london1"; "london2"]: it leaves
    out "leeds1", holds "london3" exactly once, and everything else in
    it comes from the fallback literals. *)
Theorem C8_displayed_leeds1_london3 :
  let out := displayed ["leeds1"; "london3"] "leeds1" in
  out = ["london3"; "leeds2"; "london1"; "london2"]
  ∧ ("leeds1" ∉ out)
  ∧ ("london3" ∈ out)
  ∧ length (filter (λ c, c = "london3") out) = 1%nat
  ∧ Forall (λ c, c ∈ fallback) (filter (λ c, c ≠ "london3") out).
Proof.
  assert (displayed ["leeds1"; "london3"] "leeds1"
          = ["london3"; "leeds2"; "london1"; "london2"]) as -> by reflexivity.
  cbv zeta. split; [done|]. split; [|split; [|split]].
  - by apply (bool_decide_unpack _).
  - by apply (bool_decide_unpack _).
  - reflexivity.
  - by apply (bool_decide_unpack _).
Qed.

(** C10: the displayed subset is a subsequence of the city list followed
    by the fallback list.  It is a run of fetched identifiers, in
    fetched order, followed by a run of fallback identifiers, in fallback
    order, none of which occurs in the fetched list: an identifier that
    is in both lists is placed by the fetched list, and every fetched
    identifier comes before every identifier that only the fallback
    provides. *)
Theorem C10_displayed_order cities selectedCity :
  let out := displayed cities selectedCity in
  out `sublist_of` (cities ++ fallback)
  ∧ (∃ fetched extra,
        out = fetched ++ extra
        ∧ fetched `sublist_of` cities
        ∧ extra `sublist_of` fallback
        ∧ Forall (λ c, c ∉ cities) extra)
  ∧ (∀ i j a b,
        out !! i = Some a → out !! j = Some b →
        a ∈ cities → b ∉ cities → (i < j)%nat).
Proof.
  cbv zeta.
  set (P := λ c : string, c ≠ selectedCity).
  set (fetched := take 8 (keep_first_occurrences (filter P cities))).
  set (extra :=
         take (8 - length (keep_first_occurrences (filter P cities)))
           (filter (λ c, c ∉ filter P cities)
              (keep_first_occurrences (filter P fallback)))).
  assert (Hsplit : displayed cities selectedCity = fetched ++ extra)
    by apply displayed_split.
  assert (Hfetched : fetched `sublist_of` cities).
  { unfold fetched. etrans; [apply sublist_take|].
    etrans; [apply keep_first_occurrences_sublist|]. apply sublist_filter. }
  assert (Hextra : extra `sublist_of` fallback).
  { unfold extra. etrans; [apply sublist_take|].
    etrans; [apply sublist_filter|].
    etrans; [apply keep_first_occurrences_sublist|]. apply sublist_filter. }
  assert (Hfresh : Forall (λ c, c ∉ cities) extra).
  { unfold extra. apply Forall_take, Forall_forall. intros c Hc Hin.
    apply list_elem_of_filter in Hc as [Hnot Hc].
    apply elem_of_keep_first_occurrences, list_elem_of_filter in Hc as [Hsel _].
    apply Hnot, list_elem_of_filter. by split. }
  split; [|split].
  - rewrite Hsplit. by apply sublist_app.
  - exists fetched, extra. by repeat split.
  - rewrite Hsplit. intros i j a b Hi Hj Ha Hb.
    assert (i < length fetched)%nat as Hlt.
    { destruct (decide (i < length fetched)%nat) as [|Hge]; [done|].
      rewrite lookup_app_r in Hi by lia.
      apply list_elem_of_lookup_2 in Hi.
      rewrite Forall_forall in Hfresh. by destruct (Hfresh a Hi). }
    destruct (decide (j < length fetched)%nat) as [Hj'|]; [|lia].
    rewrite lookup_app_l in Hj by done.
    apply list_elem_of_lookup_2 in Hj.
    destruct Hb. eapply elem_of_sublist; [exact Hj | exact Hfetched].
Qed.

Lemma C10_displayed_order_witness :
  displayed ["london3"; "leeds2"] "leeds4"
  = ["london3"; "leeds2"; "leeds1"; "london1"; "london2"]
  ∧ (1 < 2)%nat.
Proof.
  split; [reflexivity|].
  destruct (C10_displayed_order ["london3"; "leeds2"] "leeds4") as (_ & _ & Horder).
  apply (Horder 1%nat 2%nat "leeds2" "leeds1").
  - reflexivity.
  - reflexivity.
  - by apply (bool_decide_unpack _).
  - by apply (bool_decide_unpack _).
Defined.

(** The effect on inputs with repeated identifiers and with more than eight
    candidates. *)
Example displayed_repeated_identifiers :
  displayed ["york1"; "leeds2"; "york1"; "leeds1"; "leeds2"] "leeds1"
  = ["york1"; "leeds2"; "london1"; "london2"].
Proof. reflexivity. Qed.

Example displayed_cut_to_eight :
  displayed ["a"; "b"; "c"; "d"; "e"; "f"; "g"; "h"; "i"; "j"] "c"
  = ["a"; "b"; "d"; "e"; "f"; "g"; "h"; "i"].
Proof. reflexivity. Qed.

End CarouselClaims.

(** ** Display names and descriptions *)

Section RegistryFacts.

Lemma get_own (obj : gmap string string) key s :
  obj !! key = Some s → Js.get obj key = Js.Text s.
Proof. intros Hown. unfold Js.get. by rewrite Hown. Qed.


Lemma get_inherited (obj : gmap string string) key :
  obj !! key = None → key ∈ Js.Object_prototype →
  Js.get obj key = Js.Inherited key.
Proof.
  intros Hown Hproto. unfold Js.get. rewrite Hown.
  by rewrite bool_decide_eq_true_2.
Qed.

(** Grid and carousel label an identifier for which the registry lookup
    is [undefined] with the identifier itself. *)
Lemma embed_label_unregistered city :
  Js.get cityNames city = Js.Undefined →
  embed_label (embed city) = Js.Text city.
Proof. intros Hnone. unfold embed. simpl. by rewrite Hnone. Qed.

Lemma ThumbnailGrid_labels_unregistered cities :
  Forall (λ city, Js.get cityNames city = Js.Undefined) cities →
  embed_label <$> ThumbnailGrid.render cities = Js.Text <$> cities.
Proof.
  unfold ThumbnailGrid.render. induction 1 as [|city rest Hcity _ IH]; [done|].
  rewrite !fmap_cons. f_equal; [by apply embed_label_unregistered | exact IH].
Qed.

Lemma Carousel_labels_unregistered st :
  Forall (λ city, Js.get cityNames city = Js.Undefined)
    (Carousel.displayedCities st) →
  embed_label <$> Carousel.render st = Js.Text <$> Carousel.displayedCities st.
Proof.
  unfold Carousel.render.
  induction 1 as [|city rest Hcity _ IH]; [done|].
  rewrite !fmap_cons. f_equal; [by apply embed_label_unregistered | exact IH].
Qed.

(** The overlay heading is the bare registry lookup. *)
Lemma overlay_heading cities city :
  Home.heading (Home.overlay cities city) = Js.get cityNames city.
Proof. reflexivity. Qed.


End RegistryFacts.

(** ** Selection and routing in Home *)

Section HomeFacts.
Import Home.

Lemma handleSelect_same w city :
  selectedCity (state w) = Some city →
  handleSelect city w = setIsMapVisible false (setIsClosing true w).
Proof.
  intros Hsel. unfold handleSelect. by rewrite bool_decide_eq_true_2.
Qed.

Lemma handleSelect_other w city :
  selectedCity (state w) ≠ Some city →
  handleSelect city w
  = navigate ("/map/" +:+ city)
      (setIsClosing false
         (setIsMapVisible true (setSelectedCity (Some city) w))).
Proof.
  intros Hsel. unfold handleSelect. by rewrite bool_decide_eq_false_2.
Qed.

Lemma truthy_nonempty city : city ≠ "" → Js.truthy (Some city) = true.
Proof. intros Hne. unfold Js.truthy. by rewrite bool_decide_eq_false_2. Qed.

(** The bookkeeping of [AnimatePresence] changes nothing else. *)
Lemma commit_same before after :
  state (commit before after) = state after
  ∧ location (commit before after) = location after
  ∧ console (commit before after) = console after
  ∧ requests (commit before after) = requests after.
Proof.
  unfold commit. destruct (presence (render after)); [|done].
  destruct (open_overlay (render before)); [|done].
  by destruct (frame_kept _ _).
Qed.

Lemma render_commit before after :
  render (commit before after) = render after.
Proof.
  unfold render. by destruct (commit_same before after) as (-> & _).
Qed.

Lemma step_Select w city :
  state (step w (Select city)) = state (handleSelect city w)
  ∧ location (step w (Select city)) = location (handleSelect city w)
  ∧ render (step w (Select city)) = render (handleSelect city w).
Proof.
  simpl. destruct (commit_same w (handleSelect city w)) as (-> & -> & _).
  by rewrite render_commit.
Qed.

Lemma step_ExitComplete w isClosing_then :
  exiting w = Some isClosing_then →
  state (step w ExitComplete) = state (onExitComplete_in isClosing_then w)
  ∧ location (step w ExitComplete)
    = location (onExitComplete_in isClosing_then w).
Proof.
  intros Hexit. simpl. rewrite Hexit.
  destruct (commit_same w (onExitComplete_in isClosing_then (set_exiting None w)))
    as (-> & -> & _).
  by destruct isClosing_then.
Qed.

(** The handlers touch neither the city list, nor the console, nor the
    network. *)
Lemma step_frame w ev :
  cities (state (step w ev)) = cities (state w)
  ∧ console (step w ev) = console w
  ∧ requests (step w ev) = requests w.
Proof.
  destruct ev as [city|]; simpl.
  - destruct (commit_same w (handleSelect city w)) as (-> & _ & -> & ->).
    unfold handleSelect. by case_bool_decide.
  - destruct (exiting w) as [b|]; [|done].
    destruct (commit_same w (onExitComplete_in b (set_exiting None w)))
      as (-> & _ & -> & ->).
    by destruct b.
Qed.

Lemma run_frame evs w :
  cities (state (run w evs)) = cities (state w)
  ∧ console (run w evs) = console w
  ∧ requests (run w evs) = requests w.
Proof.
  revert w. induction evs as [|ev evs IH]; intros w; [done|].
  simpl. destruct (IH (step w ev)) as (-> & -> & ->). apply step_frame.
Qed.

(** Every handler leaves the location equal to the path of the
    selection, if it was so before. *)
Lemma step_route w ev :
  location w = route_of (selectedCity (state w)) →
  location (step w ev) = route_of (selectedCity (state (step w ev))).
Proof.
  intros Hinv. destruct ev as [city|]; simpl.
  - destruct (commit_same w (handleSelect city w)) as (-> & -> & _).
    unfold handleSelect. by case_bool_decide.
  - destruct (exiting w) as [b|]; [|done].
    destruct (commit_same w (onExitComplete_in b (set_exiting None w)))
      as (-> & -> & _).
    by destruct b.
Qed.

Lemma run_route evs w :
  location w = route_of (selectedCity (state w)) →
  location (run w evs) = route_of (selectedCity (state (run w evs))).
Proof.
  revert w. induction evs as [|ev evs IH]; intros w Hinv; [done|].
  simpl. by apply IH, step_route.
Qed.

Lemma open_overlay_inv w o :
  open_overlay (render w) = Some o →
  ∃ city, selectedCity (state w) = Some city
          ∧ city ≠ ""
          ∧ isMapVisible (state w) = true
          ∧ o = overlay (cities (state w)) city.
Proof.
  unfold open_overlay, render; simpl. intros Hopen.
  destruct (selectedCity (state w)) as [city|]; [|done].
  unfold Js.truthy in Hopen. case_bool_decide as Hempty; simpl in Hopen; [done|].
  destruct (isMapVisible (state w)); simpl in Hopen; [|done].
  injection Hopen as <-. by exists city.
Qed.

(** Closing the open overlay starts its exit with the callback of a
    render in which [isClosing] is set; replacing it starts the exit of
    the replaced element with the callback of a render in which it is
    not. *)
Lemma exiting_after_close w city previous :
  selectedCity (state w) = Some city →
  open_overlay (render w) = Some previous →
  exiting (step w (Select city)) = Some true.
Proof.
  intros Hsel Hopen. simpl. unfold commit.
  rewrite Hopen. rewrite (handleSelect_same w city Hsel).
  apply open_overlay_inv in Hopen as (c & Hc & Hne & Hvis & ->).
  rewrite Hsel in Hc. injection Hc as <-.
  pose proof (truthy_nonempty city Hne) as Htruthy. unfold Js.truthy in Htruthy.
  unfold frame_kept, open_overlay, render; simpl.
  rewrite Hsel, Hvis; simpl. by rewrite Htruthy.
Qed.

Lemma exiting_after_switch w city previous :
  selectedCity (state w) ≠ Some city →
  city ≠ "" →
  open_overlay (render w) = Some previous →
  frame_kept (render w) (render (handleSelect city w)) = false
  ∧ exiting (step w (Select city)) = Some false.
Proof.
  intros Hsel Hne Hopen.
  assert (frame_kept (render w) (render (handleSelect city w)) = false) as Hkept.
  { unfold frame_kept. rewrite Hopen.
    apply open_overlay_inv in Hopen as (c & Hc & _ & _ & ->).
    rewrite (handleSelect_other w city Hsel).
    pose proof (truthy_nonempty city Hne) as Htruthy. unfold Js.truthy in Htruthy.
    unfold open_overlay, render; simpl. rewrite Htruthy; simpl.
    apply bool_decide_eq_false_2. congruence. }
  split; [done|]. simpl. unfold commit. rewrite Hopen, Hkept.
  rewrite (handleSelect_other w city Hsel).
  pose proof (truthy_nonempty city Hne) as Htruthy. unfold Js.truthy in Htruthy.
  unfold render; simpl. by rewrite Htruthy.
Qed.

Lemma route_matches_everything pathname :
  App.route pathname = Some App.HomeComponent.
Proof. reflexivity. Qed.

End HomeFacts.

Section HomeClaims.
Import Home.

(** C3 fails in two places.  For the empty identifier: selecting it
    while another city is open stores it as the selection, and the guard
    [selectedCity &&] then renders no overlay at all.  For the frame:
    switching from leeds1 to london3 renders an overlay element with
    another key, so the full-screen element is unmounted and a new one
    mounted. *)
Lemma C3_handleSelect_counterexample :
  let w := run (init "/") [Select "leeds1"] in
  (selectedCity (state w) ≠ Some ""
   ∧ is_Some (open_overlay (render w))
   ∧ selectedCity (state (handleSelect "" w)) = Some ""
   ∧ ¬ is_Some (open_overlay (render (handleSelect "" w))))
  ∧ (selectedCity (state w) ≠ Some "london3"
     ∧ overlay_key <$> open_overlay (render w) = Some "leeds1"
     ∧ overlay_key <$> open_overlay (render (handleSelect "london3" w))
       = Some "london3"
     ∧ frame_kept (render w) (render (handleSelect "london3" w)) = false).
Proof.
  cbv zeta. split.
  - split; [done|]. split; [by eexists|]. split; [reflexivity|].
    by intros [o Ho].
  - split; [done|]. by repeat split.
Qed.

(** C3, for a non-empty identifier.  Invoked with the selected city, the
    handler marks the state as closing and takes the overlay element out
    from under [AnimatePresence], which stays rendered and so plays the
    exit; the selection and the location are still in place, and the
    [onExitComplete] of that render then clears the selection and
    navigates to the root, after which nothing of the overlay is
    rendered; with the overlay open this is what the click followed by
    the end of the exit does.  Invoked with any other city, the handler
    selects it, navigates to its path /map/{city} and renders the overlay
    element of that city; if an overlay was open, [AnimatePresence] is
    rendered before and after, but the overlay element, keyed by the
    city, is not kept: the old one is unmounted, starting its exit, and a
    new one is mounted. *)
Theorem C3_handleSelect_toggles_or_switches (w : World) (city : string) :
  city ≠ "" →
  (selectedCity (state w) = Some city →
     let closing := handleSelect city w in
     isClosing (state closing) = true
     ∧ presence (render closing) = Some (AnimatePresence None)
     ∧ selectedCity (state closing) = Some city
     ∧ location closing = location w
     ∧ selectedCity (state (onExitComplete closing)) = None
     ∧ location (onExitComplete closing) = "/"
     ∧ presence (render (onExitComplete closing)) = None
     ∧ ∀ previous, open_overlay (render w) = Some previous →
         let closed := run w [Select city; ExitComplete] in
         selectedCity (state closed) = None
         ∧ location closed = "/"
         ∧ presence (render closed) = None)
  ∧ (selectedCity (state w) ≠ Some city →
     let switched := handleSelect city w in
     selectedCity (state switched) = Some city
     ∧ isClosing (state switched) = false
     ∧ location switched = "/map/" +:+ city
     ∧ presence (render switched)
       = Some (AnimatePresence (Some (overlay (cities (state w)) city)))
     ∧ ∀ previous, open_overlay (render w) = Some previous →
         is_Some (presence (render w))
         ∧ is_Some (presence (render switched))
         ∧ frame_kept (render w) (render switched) = false
         ∧ exiting (step w (Select city)) = Some false).
Proof.
  intros Hne. pose proof (truthy_nonempty city Hne) as Htruthy.
  unfold Js.truthy in Htruthy. split; intros Hsel; cbv zeta.
  - do 7 (split; [rewrite (handleSelect_same w city Hsel);
                  unfold render, onExitComplete; simpl; rewrite ?Hsel; simpl;
                  by rewrite ?Htruthy|]).
    intros previous Hopen.
    pose proof (exiting_after_close w city previous Hsel Hopen) as Hexit.
    change (run w [Select city; ExitComplete])
      with (step (step w (Select city)) ExitComplete).
    destruct (step_ExitComplete _ _ Hexit) as (Hstate & Hloc).
    unfold render. rewrite Hstate, Hloc. done.
  - do 4 (split; [rewrite (handleSelect_other w city Hsel);
                  unfold render; simpl; by rewrite ?Htruthy|]).
    intros previous Hopen.
    destruct (exiting_after_switch w city previous Hsel Hne Hopen)
      as (Hkept & Hexit).
    split; [|split; [|by split]].
    + unfold open_overlay in Hopen. destruct (presence (render w)); [by eexists|done].
    + rewrite (handleSelect_other w city Hsel).
      unfold render; simpl. rewrite Htruthy. by eexists.
Qed.

Lemma C3_handleSelect_witness :
  let w := run (init "/") [Select "leeds1"] in
  location (onExitComplete (handleSelect "leeds1" w)) = "/"
  ∧ location (handleSelect "london3" w) = "/map/london3".
Proof.
  cbv zeta.
  destruct (C3_handleSelect_toggles_or_switches
              (run (init "/") [Select "leeds1"]) "leeds1" ltac:(done))
    as [Hclose _].
  destruct (C3_handleSelect_toggles_or_switches
              (run (init "/") [Select "leeds1"]) "london3" ltac:(done))
    as [_ Hswitch].
  split.
  - apply (Hclose eq_refl).
  - apply (Hswitch ltac:(done)).
Defined.

(** C4 at the identifier "leeds5", which the backend may list and the
    registry does not know: the grid labels its thumbnail "leeds5", and
    the heading of the overlay opened on it is [undefined], which
    renders as nothing. *)
Theorem C4_overlay_heading_unregistered :
  let w := run (setCities ["leeds5"] (init "/")) [Select "leeds5"] in
  cityNames !! "leeds5" = None
  ∧ Js.get cityNames "leeds5" = Js.Undefined
  ∧ embed_label <$> grid (render w) = [Js.Text "leeds5"]
  ∧ ∃ o, open_overlay (render w) = Some o
         ∧ overlay_key o = "leeds5"
         ∧ heading o = Js.Undefined
         ∧ Js.child (heading o) = Js.Shows "".
Proof.
  cbv zeta. split; [by vm_compute|]. split; [by vm_compute|].
  split; [by vm_compute|].
  eexists. split; [reflexivity|]. split; [reflexivity|].
  split; by vm_compute.
Qed.

(** C5 fails for a body that parses but has not the expected member:
    for the body [{}] with status 200 the list stays empty and the grid
    has no thumbnail, but nothing is written to the console. *)
Lemma C5_missing_member_counterexample :
  let w := (mount "/" (Responded {| status := 200;
                                     body := Parsed (DataObject None) |})).2 in
  cities (state w) = []
  ∧ grid (render w) = []
  ∧ console w = []
  ∧ ¬ ∃ msg, console w = [["Error fetching cities:"; msg]].
Proof.
  cbv zeta. split; [reflexivity|]. split; [reflexivity|].
  split; [reflexivity|]. by intros [msg Hmsg].
Qed.

(** C5, as the code has it: when the fetch fails (no response, a status
    outside 200-299, a body that does not parse, or the body [null]), the
    promise built by the effect is fulfilled all the same, one error line
    is on the console, the one request sent stays the only one, the city
    list is empty and the grid has no thumbnail; whatever is selected or
    closed afterwards changes none of this.  A body with a status in
    200-299 that parses to a value without a [cities] member leaves the
    list as empty, and logs nothing. *)
Theorem C5_failed_fetch_leaves_empty_grid pathname o :
  (fetch_fails o = true →
   let settled := (mount pathname o).1 in
   let w := (mount pathname o).2 in
   settled = Fulfilled tt
   ∧ (∃ msg, console w = [["Error fetching cities:"; msg]])
   ∧ requests w = [cities_url]
   ∧ cities (state w) = []
   ∧ grid (render w) = []
   ∧ ∀ evs, cities (state (run w evs)) = []
            ∧ grid (render (run w evs)) = []
            ∧ requests (run w evs) = [cities_url]
            ∧ console (run w evs) = console w)
  ∧ (∀ res, o = Responded res → ok res = true →
            body res = Parsed (DataObject None) →
            (mount pathname o).1 = Fulfilled tt
            ∧ cities (state (mount pathname o).2) = []
            ∧ grid (render (mount pathname o).2) = []
            ∧ console (mount pathname o).2 = []).
Proof.
  split.
  - intros Hfail. cbv zeta.
    assert ((mount pathname o).1 = Fulfilled tt
            ∧ (∃ msg, console (mount pathname o).2
                      = [["Error fetching cities:"; msg]])
            ∧ requests (mount pathname o).2 = [cities_url]
            ∧ cities (state (mount pathname o).2) = []) as (H1 & H2 & H3 & H4).
    { unfold mount, fetch_effect, catch_, then_, fetch.
      destruct o as [msg|res]; simpl.
      - repeat split. by eexists.
      - simpl in Hfail. destruct (ok res); simpl in *.
        + unfold json. destruct (body res) as [msg|[|members]]; [| |done]; simpl.
          * repeat split. by eexists.
          * repeat split. by eexists.
        + repeat split. by eexists. }
    repeat split; try done.
    + unfold render. simpl. by rewrite H4.
    + destruct (run_frame evs (mount pathname o).2) as (-> & _ & _). done.
    + unfold render. simpl.
      destruct (run_frame evs (mount pathname o).2) as (-> & _ & _).
      by rewrite H4.
    + destruct (run_frame evs (mount pathname o).2) as (_ & _ & ->). done.
    + by destruct (run_frame evs (mount pathname o).2) as (_ & -> & _).
  - intros res -> Hok Hbody.
    unfold mount, fetch_effect, catch_, then_, fetch, json, render; simpl.
    by rewrite Hok, Hbody.
Qed.

Lemma C5_failed_fetch_witness :
  (mount "/" (Responded {| status := 500; body := Parsed (DataObject (Some ["leeds1"])) |})).2
  = {| state := {| cities := []; selectedCity := None;
                   isMapVisible := false; isClosing := false |};
       location := "/";
       console := [["Error fetching cities:"; "HTTP error! status: 500"]];
       requests := ["http://localhost:8000/cities"];
       exiting := None |}
  ∧ grid (render (mount "/" (NetworkError "Failed to fetch")).2) = []
  ∧ cities (state (mount "/" (Responded {| status := 200; body := Unparseable "Unexpected token" |})).2) = []
  ∧ console (mount "/" (Responded {| status := 200; body := Parsed DataNull |})).2
    = [["Error fetching cities:";
        "Cannot read properties of null (reading 'cities')"]]
  ∧ console (mount "/" (Responded {| status := 200; body := Parsed (DataObject None) |})).2 = [].
Proof.
  split; [by vm_compute|]. split; [|split; [|split]].
  - apply (proj1 (C5_failed_fetch_leaves_empty_grid "/" (NetworkError "Failed to fetch")) eq_refl).
  - apply (proj1 (C5_failed_fetch_leaves_empty_grid "/"
             (Responded {| status := 200; body := Unparseable "Unexpected token" |})) eq_refl).
  - reflexivity.
  - apply (proj2 (C5_failed_fetch_leaves_empty_grid "/"
             (Responded {| status := 200; body := Parsed (DataObject None) |}))
             {| status := 200; body := Parsed (DataObject None) |}
             eq_refl eq_refl eq_refl).
Defined.

(** C6 fails on a deep link: loaded at /map/leeds1 the application starts
    with no city selected, so the state does not name the city the
    location names. *)
Lemma C6_deep_link_counterexample :
  ∃ w, App.load "/map/leeds1" = Some w
       ∧ location w = "/map/leeds1"
       ∧ selectedCity (state w) ≠ Some "leeds1"
       ∧ location w ≠ route_of (selectedCity (state w)).
Proof. eexists. split; [reflexivity|]. by repeat split. Qed.

(** C6, as the code has it: the selection is written to the route and
    never read from it.  Loaded at the root and driven by the selection
    handler and the exit callback, the location is always the path of
    the selection: /map/{c} while c is selected, the root while nothing
    is.  Loaded at /map/{c}, the application starts in the initial state
    of Home, with no city selected and no overlay. *)
Theorem C6_selection_written_to_route :
  (∀ evs, let w := run (init "/") evs in
          App.load "/" = Some (init "/")
          ∧ location w = route_of (selectedCity (state w)))
  ∧ (∀ c, let w := init ("/map/" +:+ c) in
          App.load ("/map/" +:+ c) = Some w
          ∧ selectedCity (state w) = None
          ∧ presence (render w) = None).
Proof.
  split.
  - intros evs. cbv zeta. split; [reflexivity|]. by apply run_route.
  - intros c. cbv zeta. by repeat split.
Qed.

(** C7 fails at the router: the detail path without an identifier mounts
    Home like every other path, and the page is the empty grid, not the
    error message. *)
Lemma C7_no_parameter_counterexample :
  App.page "/map/" = App.HomePage {| grid := []; presence := None |}
  ∧ App.page "/map/"
    ≠ App.MapViewPage (MapView.ErrorMessage "Error: No city parameter provided.").
Proof. split; [reflexivity | discriminate]. Qed.

(** C7, as the code has it: the stand-alone MapView rendered without a
    city parameter (absent or empty) returns the inline message
    "Error: No city parameter provided."; the router does not mount it:
    every path, the detail path without an identifier included, shows
    Home in its initial state. *)
Theorem C7_error_state_in_MapView_only :
  MapView.render None = MapView.ErrorMessage "Error: No city parameter provided."
  ∧ MapView.render (Some "") = MapView.ErrorMessage "Error: No city parameter provided."
  ∧ ∀ pathname,
      App.page pathname = App.HomePage {| grid := []; presence := None |}.
Proof. by repeat split. Qed.




(** A round trip through the selection handlers: open leeds1, switch to
    london3, close it, let the exit finish. *)
Example run_open_switch_close :
  run (init "/") [Select "leeds1"; Select "london3"; Select "london3"; ExitComplete]
  = {| state := {| cities := []; selectedCity := None;
                   isMapVisible := false; isClosing := true |};
       location := "/"; console := []; requests := [];
       exiting := None |}.
Proof. reflexivity. Qed.

(** The fetch on its success path: the list of the body is stored, and a
    body that parses but has no [cities] member stores the empty list;
    neither logs anything. *)
Example mount_with_cities :
  mount "/" (Responded {| status := 200;
                          body := Parsed (DataObject (Some ["leeds1"; "london3"])) |})
  = (Fulfilled tt,
     {| state := {| cities := ["leeds1"; "london3"]; selectedCity := None;
                    isMapVisible := false; isClosing := false |};
        location := "/"; console := [];
        requests := ["http://localhost:8000/cities"];
        exiting := None |}).
Proof. reflexivity. Qed.

Example mount_without_cities_member :
  mount "/" (Responded {| status := 200; body := Parsed (DataObject None) |})
  = (Fulfilled tt,
     {| state := {| cities := []; selectedCity := None;
                    isMapVisible := false; isClosing := false |};
        location := "/"; console := [];
        requests := ["http://localhost:8000/cities"];
        exiting := None |}).
Proof. reflexivity. Qed.

End HomeClaims.

(** * Further properties of the components *)

(** ** Carousel and grid *)

Section StripFacts.
Import Carousel.

Lemma keep_first_occurrences_length xs :
  (length (keep_first_occurrences xs) ≤ length xs)%nat.
Proof. apply sublist_length, keep_first_occurrences_sublist. Qed.

Lemma filter_other_id (x : string) (xs : list string) :
  x ∉ xs → filter (λ y, y ≠ x) xs = xs.
Proof.
  induction xs as [|y ys IH]; [done|].
  intros [Hxy Hx]%not_elem_of_cons.
  rewrite filter_cons_True by done. f_equal. by apply IH.
Qed.

Lemma keep_first_occurrences_id xs :
  NoDup xs → keep_first_occurrences xs = xs.
Proof.
  induction 1 as [|x xs Hx _ IH]; simpl; [done|].
  by rewrite IH, filter_other_id.
Qed.

Lemma displayed_NoDup cities selectedCity :
  NoDup (displayed cities selectedCity).
Proof.
  rewrite displayed_keep_first.
  eapply sublist_NoDup; [|apply sublist_take].
  apply keep_first_occurrences_NoDup.
Qed.

Lemma embed_key_fmap (xs : list string) : embed_key <$> (embed <$> xs) = xs.
Proof. induction xs as [|x xs IH]; [done|]. rewrite !fmap_cons. by f_equal. Qed.

(** Whatever is selected, at least three of the four fallback literals
    survive the filter. *)
Lemma fallback_without_selection selectedCity :
  (3 ≤ length (filter (λ c, c ≠ selectedCity) fallback))%nat.
Proof.
  unfold fallback.
  destruct (decide (selectedCity = "leeds1")) as [->|H1];
    [by vm_compute|].
  destruct (decide (selectedCity = "leeds2")) as [->|H2];
    [by vm_compute|].
  rewrite filter_cons_True by done. rewrite filter_cons_True by done.
  simpl.
  destruct (decide (selectedCity = "london1")) as [->|H3];
    [by vm_compute|].
  rewrite filter_cons_True by done. simpl. lia.
Qed.

Lemma displayed_length_ge_three cities selectedCity :
  (3 ≤ length (displayed cities selectedCity))%nat.
Proof.
  rewrite displayed_keep_first, length_take.
  set (F := filter (λ c, c ≠ selectedCity) (cities ++ fallback)).
  assert (length (filter (λ c, c ≠ selectedCity) fallback)
          ≤ length (keep_first_occurrences F))%nat as Hle.
  { apply submseteq_length, NoDup_submseteq.
    - apply NoDup_filter. unfold fallback.
      apply (bool_decide_unpack _). by vm_compute.
    - intros x Hx. apply elem_of_keep_first_occurrences.
      unfold F. rewrite filter_app, elem_of_app. by right. }
  pose proof (fallback_without_selection selectedCity). lia.
Qed.

(** X1: the strip never has fewer than three entries, whatever the
    fetched list (even empty) and the selection are. *)
Theorem X1_displayed_at_least_three cities selectedCity :
  (3 ≤ length (displayed cities selectedCity))%nat.
Proof. apply displayed_length_ge_three. Qed.

(** X2: when at most four cities were fetched nothing is cut off: the
    strip holds exactly the fetched and fallback identifiers other than
    the selected one. *)
Theorem X2_displayed_complete_when_short cities selectedCity x :
  (length cities ≤ 4)%nat →
  x ∈ displayed cities selectedCity
  ↔ (x ∈ cities ∨ x ∈ fallback) ∧ x ≠ selectedCity.
Proof.
  intros Hlen. rewrite displayed_keep_first, take_ge.
  - rewrite elem_of_keep_first_occurrences, list_elem_of_filter, elem_of_app.
    tauto.
  - etrans; [apply keep_first_occurrences_length|].
    etrans; [apply length_filter|].
    rewrite length_app. unfold fallback. simpl. lia.
Qed.

Lemma X2_displayed_complete_witness :
  "london2" ∈ displayed ["york1"; "leeds2"] "leeds2".
Proof.
  apply (X2_displayed_complete_when_short ["york1"; "leeds2"] "leeds2" "london2").
  - simpl. lia.
  - split; [right; by apply (bool_decide_unpack _) | done].
Defined.

(** X3: when the fetched list has no repeated identifier, the strip starts
    with the fetched cities other than the selected one, in fetched order,
    up to eight of them; fallback entries only come after. *)
Theorem X3_displayed_starts_with_fetched cities selectedCity :
  NoDup cities →
  take 8 (filter (λ c, c ≠ selectedCity) cities)
    `prefix_of` displayed cities selectedCity.
Proof.
  intros Hnodup. rewrite displayed_split.
  rewrite (keep_first_occurrences_id (filter _ cities))
    by by apply NoDup_filter.
  by apply prefix_app_r.
Qed.

Lemma X3_displayed_starts_with_fetched_witness :
  ["york1"; "leeds3"] `prefix_of` displayed ["york1"; "leeds2"; "leeds3"] "leeds2".
Proof.
  apply (X3_displayed_starts_with_fetched ["york1"; "leeds2"; "leeds3"] "leeds2").
  apply (bool_decide_unpack _). by vm_compute.
Defined.

(** X4: after the effect has run, the embeds of the strip carry pairwise
    distinct keys, one per displayed city, and the strip is given between
    450 and 1200 pixels of width. *)
Theorem X4_strip_keys_and_width cities selectedCity st :
  let st' := effect cities selectedCity st in
  NoDup (embed_key <$> render st')
  ∧ length (render st') = length (displayedCities st')
  ∧ (450 ≤ strip_width st' ≤ 1200)%nat.
Proof.
  cbv zeta. unfold render, strip_width.
  change (displayedCities (effect cities selectedCity st))
    with (displayed cities selectedCity).
  rewrite embed_key_fmap, length_fmap.
  split; [apply displayed_NoDup|]. split; [done|].
  pose proof (displayed_length_ge_three cities selectedCity) as Hthree.
  assert (length (displayed cities selectedCity) ≤ 8)%nat; [|lia].
  rewrite displayed_keep_first, length_take. lia.
Qed.

(** X5: the grid renders one thumbnail per entry of the city list, in
    order and keyed by the identifier; its keys are pairwise distinct
    exactly when the list has no repeated identifier. *)
Theorem X5_grid_one_thumbnail_per_city (cities : list string) :
  embed_key <$> ThumbnailGrid.render cities = cities
  ∧ length (ThumbnailGrid.render cities) = length cities
  ∧ (NoDup (embed_key <$> ThumbnailGrid.render cities) ↔ NoDup cities).
Proof.
  unfold ThumbnailGrid.render. rewrite embed_key_fmap, length_fmap. done.
Qed.

End StripFacts.

(** ** Labels and document addresses *)

Section EmbedFacts.

Lemma cityNames_nonempty city name :
  cityNames !! city = Some name → name ≠ "".
Proof.
  intros Hlookup. unfold cityNames in Hlookup.
  apply elem_of_list_to_map_2 in Hlookup.
  repeat (apply elem_of_cons in Hlookup as [[= _ ->]|Hlookup]; [done|]).
  by apply elem_of_nil in Hlookup.
Qed.

(** X6: the hover label of a grid or carousel embed is the registered
    display name when the registry has the identifier; for an identifier
    it has not, the label is the identifier itself, unless the identifier
    names a member inherited from [Object.prototype]: then the label is
    that member, which shows nothing (or, for [__proto__], makes the
    render throw). *)
Theorem X6_embed_label_name_or_identifier city :
  embed_label (embed city)
  = match cityNames !! city with
    | Some name => Js.Text name
    | None => if bool_decide (city ∈ Js.Object_prototype)
              then Js.Inherited city
              else Js.Text city
    end.
Proof.
  unfold embed, Js.get. simpl.
  destruct (cityNames !! city) as [name|] eqn:Hlookup.
  - apply cityNames_nonempty in Hlookup. unfold Js.or_else. simpl.
    by rewrite bool_decide_eq_false_2.
  - by case_bool_decide.
Qed.

Lemma length_append (s t : string) :
  String.length (s +:+ t) = (String.length s + String.length t)%nat.
Proof.
  induction s as [|c s IH]; [done|].
  change (S (String.length (s +:+ t)) = S (String.length s + String.length t)).
  by rewrite IH.
Qed.

Lemma append_cancel_r (s1 s2 t : string) :
  s1 +:+ t = s2 +:+ t → s1 = s2.
Proof.
  revert s2. induction s1 as [|c s1 IH]; intros [|c' s2] Heq.
  - done.
  - apply (f_equal String.length) in Heq.
    rewrite !length_append in Heq. simpl in Heq. lia.
  - apply (f_equal String.length) in Heq.
    rewrite !length_append in Heq. simpl in Heq. lia.
  - change (String c (s1 +:+ t) = String c' (s2 +:+ t)) in Heq.
    injection Heq as -> Heq. f_equal. by apply IH.
Qed.

(** X7: the address of the heatmap document determines the city: two
    identifiers with the same address are the same identifier. *)
Theorem X7_heatmap_src_injective city1 city2 :
  heatmap_src city1 = heatmap_src city2 → city1 = city2.
Proof.
  unfold heatmap_src. intros Heq.
  apply (inj (String.app "/static/preprocessing/")) in Heq.
  by apply append_cancel_r in Heq.
Qed.

Lemma X7_heatmap_src_injective_witness :
  heatmap_src "leeds1" = "/static/preprocessing/leeds1_heatmap.html"
  ∧ "leeds1" = "leeds1".
Proof.
  split; [reflexivity|].
  by apply (X7_heatmap_src_injective "leeds1" "leeds1").
Defined.

(** X8: when serving, the development server forwards the address of
    every heatmap document, unchanged, to the backend at localhost:8000;
    for any other command nothing is forwarded. *)
Theorem X8_heatmap_documents_are_proxied command city :
  Vite.forward (Vite.server command) (heatmap_src city)
  = if bool_decide (command = "serve")
    then Some ("http://localhost:8000" +:+ heatmap_src city)
    else None.
Proof. unfold Vite.server. by case_bool_decide. Qed.

End EmbedFacts.

(** ** The city-list fetch, for every way it settles *)

Section FetchFacts.
Import Home.

Lemma mount_settles pathname o :
  (mount pathname o).1 = Fulfilled tt
  ∧ requests (mount pathname o).2 = [cities_url]
  ∧ location (mount pathname o).2 = pathname
  ∧ selectedCity (state (mount pathname o).2) = None
  ∧ isMapVisible (state (mount pathname o).2) = false
  ∧ isClosing (state (mount pathname o).2) = false.
Proof.
  unfold mount, fetch_effect, catch_, then_, fetch.
  destruct o as [msg|res]; simpl; [done|].
  destruct (ok res); simpl; [|done].
  unfold json. by destruct (body res) as [msg|[|member]].
Qed.

(** X9: however the request settles, the promise built by the effect is
    fulfilled, exactly one request has been sent, to the cities endpoint,
    and neither the location nor the selection has been touched: no
    overlay is shown. *)
Theorem X9_fetch_always_settles_quietly pathname o :
  let w := (mount pathname o).2 in
  (mount pathname o).1 = Fulfilled tt
  ∧ requests w = ["http://localhost:8000/cities"]
  ∧ location w = pathname
  ∧ selectedCity (state w) = None
  ∧ presence (render w) = None.
Proof.
  cbv zeta. destruct (mount_settles pathname o) as (H1 & H2 & H3 & H4 & _).
  repeat split; try done. unfold render; simpl. by rewrite H4.
Qed.

(** X11: the status is checked before the body is read: for a response
    outside 200-299 the logged message is the HTTP one with the status
    code, whether or not the body would parse, and the city list stays
    empty even if the body carries one. *)
Theorem X11_status_checked_before_body pathname res :
  ok res = false →
  console (mount pathname (Responded res)).2
  = [["Error fetching cities:"; "HTTP error! status: " +:+ pretty (status res)]]
  ∧ cities (state (mount pathname (Responded res)).2) = [].
Proof.
  intros Hok. unfold mount, fetch_effect, catch_, then_, fetch. simpl.
  by rewrite Hok.
Qed.

Lemma X11_status_checked_witness :
  console (mount "/" (Responded {| status := 404;
                                    body := Unparseable "Unexpected token <" |})).2
  = [["Error fetching cities:"; "HTTP error! status: 404"]].
Proof.
  apply (X11_status_checked_before_body "/"
           {| status := 404; body := Unparseable "Unexpected token <" |}).
  reflexivity.
Defined.

(** X12: for a response in 200-299 whose body parses to an object whose
    [cities] member is an array of identifiers, the grid shows one
    thumbnail per identifier of that array, in order; when the member is
    missing or falsy the list is empty and the grid has none.  In both
    cases the effect logs nothing. *)
Theorem X12_fetched_list_reaches_grid pathname res member :
  ok res = true →
  body res = Parsed (DataObject member) →
  let w := (mount pathname (Responded res)).2 in
  cities (state w) = default [] member
  ∧ embed_key <$> grid (render w) = default [] member
  ∧ console w = [].
Proof.
  intros Hok Hbody. cbv zeta.
  unfold mount, fetch_effect, catch_, then_, fetch, json. simpl.
  rewrite Hok, Hbody. simpl. unfold ThumbnailGrid.render.
  by rewrite embed_key_fmap.
Qed.

Lemma X12_fetched_list_witness :
  embed_key <$> grid (render (mount "/" (Responded
      {| status := 200;
         body := Parsed (DataObject (Some ["leeds1"; "york1"])) |})).2)
  = ["leeds1"; "york1"].
Proof.
  apply (X12_fetched_list_reaches_grid "/"
           {| status := 200;
              body := Parsed (DataObject (Some ["leeds1"; "york1"])) |}
           (Some ["leeds1"; "york1"])).
  - reflexivity.
  - reflexivity.
Defined.

End FetchFacts.

(** ** The selection handlers, composed *)

Section SelectionFacts.
Import Home.

(** The two flags as the handlers keep them: never both set. *)
Lemma step_flags_exclusive w ev :
  isMapVisible (state w) && isClosing (state w) = false →
  isMapVisible (state (step w ev)) && isClosing (state (step w ev)) = false.
Proof.
  intros Hboth. destruct ev as [city|]; simpl.
  - destruct (commit_same w (handleSelect city w)) as (-> & _).
    unfold handleSelect. by case_bool_decide.
  - destruct (exiting w) as [b|]; [|done].
    destruct (commit_same w (onExitComplete_in b (set_exiting None w)))
      as (-> & _).
    by destruct b.
Qed.

Lemma run_flags_exclusive evs w :
  isMapVisible (state w) && isClosing (state w) = false →
  isMapVisible (state (run w evs)) && isClosing (state (run w evs)) = false.
Proof.
  revert w. induction evs as [|ev evs IH]; intros w Hw; [done|].
  simpl. by apply IH, step_flags_exclusive.
Qed.

(** A click on a non-empty identifier while no overlay element is
    rendered starts no exit and drops none. *)
Lemma exiting_kept_without_overlay w city :
  open_overlay (render w) = None →
  city ≠ "" →
  exiting (step w (Select city)) = exiting w.
Proof.
  intros Hnone Hne. simpl. unfold commit. rewrite Hnone.
  pose proof (truthy_nonempty city Hne) as Htruthy. unfold Js.truthy in Htruthy.
  destruct (decide (selectedCity (state w) = Some city)) as [Hsel|Hsel].
  - rewrite (handleSelect_same w city Hsel).
    unfold render; simpl. rewrite Hsel. simpl. by rewrite Htruthy.
  - rewrite (handleSelect_other w city Hsel).
    unfold render; simpl. by rewrite Htruthy.
Qed.

(** X13: clicks and exit completions never change the fetched city list,
    never write to the console and never send a request; the grid
    therefore shows the same thumbnails throughout. *)
Theorem X13_selection_leaves_list_console_network w evs :
  cities (state (run w evs)) = cities (state w)
  ∧ console (run w evs) = console w
  ∧ requests (run w evs) = requests w
  ∧ grid (render (run w evs)) = grid (render w).
Proof.
  destruct (run_frame evs w) as (Hc & Hl & Hr).
  repeat split; try done. unfold render; simpl. by rewrite Hc.
Qed.

(** X14: in every state reached after mounting, whichever way the fetch
    settled and whatever was clicked or finished animating, the map is
    never both visible and closing. *)
Theorem X14_flags_never_both_set pathname o evs :
  let w := run (mount pathname o).2 evs in
  isMapVisible (state w) && isClosing (state w) = false.
Proof.
  cbv zeta. apply run_flags_exclusive.
  destruct (mount_settles pathname o) as (_ & _ & _ & _ & Hv & Hc).
  by rewrite Hv.
Qed.

(** X15: after a load at the root, whenever the overlay is open the
    location is the path of the city it is keyed by, and the overlay
    embeds the heatmap document of that city. *)
Theorem X15_open_overlay_matches_location o evs overlay_shown :
  let w := run (mount "/" o).2 evs in
  open_overlay (render w) = Some overlay_shown →
  location w = "/map/" +:+ overlay_key overlay_shown
  ∧ selectedCity (state w) = Some (overlay_key overlay_shown)
  ∧ map_src overlay_shown = heatmap_src (overlay_key overlay_shown).
Proof.
  cbv zeta. intros Hopen.
  apply open_overlay_inv in Hopen as (city & Hsel & _ & _ & ->). simpl.
  split; [|done].
  rewrite (run_route evs (mount "/" o).2).
  - by rewrite Hsel.
  - destruct (mount_settles "/" o) as (_ & _ & -> & -> & _). done.
Qed.

Lemma X15_open_overlay_witness :
  location (run (mount "/" (NetworkError "Failed to fetch")).2
              [Select "leeds1"; Select "london2"])
  = "/map/london2".
Proof.
  apply (X15_open_overlay_matches_location (NetworkError "Failed to fetch")
           [Select "leeds1"; Select "london2"]
           (overlay [] "london2")).
  reflexivity.
Defined.

(** X16: when the open overlay is replaced by a switch to another,
    non-empty city, the exit of the replaced element ends with the
    callback of a render in which [isClosing] is not set: it changes
    nothing, and the selection just made is kept. *)
Theorem X16_exit_after_switch_keeps_selection w city previous :
  open_overlay (render w) = Some previous →
  selectedCity (state w) ≠ Some city →
  city ≠ "" →
  let w' := run w [Select city; ExitComplete] in
  selectedCity (state w') = Some city
  ∧ location w' = "/map/" +:+ city
  ∧ open_overlay (render w') = Some (overlay (cities (state w)) city).
Proof.
  intros Hopen Hsel Hne. cbv zeta.
  destruct (exiting_after_switch w city previous Hsel Hne Hopen) as (_ & Hexit).
  change (run w [Select city; ExitComplete])
    with (step (step w (Select city)) ExitComplete).
  destruct (step_ExitComplete _ _ Hexit) as (Hstate & Hloc).
  destruct (step_Select w city) as (Hs & Hl & _).
  unfold onExitComplete_in in Hstate, Hloc.
  unfold render. rewrite Hstate, Hloc, Hs, Hl.
  rewrite (handleSelect_other w city Hsel). simpl.
  pose proof (truthy_nonempty city Hne) as Htruthy. unfold Js.truthy in Htruthy.
  unfold open_overlay; simpl. by rewrite Htruthy.
Qed.

Lemma X16_exit_after_switch_witness :
  selectedCity (state (run (init "/") [Select "leeds1"; Select "leeds2"; ExitComplete]))
  = Some "leeds2".
Proof.
  apply (X16_exit_after_switch_keeps_selection
           (run (init "/") [Select "leeds1"]) "leeds2" (overlay [] "leeds1")).
  - reflexivity.
  - done.
  - done.
Defined.

(** X17: selecting twice in a row a city that was not selected opens it
    and at once starts closing it: the city is still selected and the
    location still its path, but the map is no longer visible; a third
    call changes nothing more. *)
Theorem X17_second_select_starts_closing w city :
  selectedCity (state w) ≠ Some city →
  let twice := handleSelect city (handleSelect city w) in
  selectedCity (state twice) = Some city
  ∧ isMapVisible (state twice) = false
  ∧ isClosing (state twice) = true
  ∧ location twice = "/map/" +:+ city
  ∧ open_overlay (render twice) = None
  ∧ handleSelect city twice = twice.
Proof.
  intros Hsel. cbv zeta. rewrite (handleSelect_other w city Hsel).
  rewrite handleSelect_same by done.
  rewrite handleSelect_same by done.
  repeat split; try done.
  unfold open_overlay, render, Js.truthy; simpl. by case_bool_decide.
Qed.

Lemma X17_second_select_witness :
  isClosing (state (handleSelect "leeds1" (handleSelect "leeds1" (init "/")))) = true.
Proof.
  apply (X17_second_select_starts_closing (init "/") "leeds1"). done.
Defined.

(** X18: completing an exit twice is the same as completing it once; the
    closing flag is not reset by the completion. *)
Theorem X18_onExitComplete_idempotent w :
  onExitComplete (onExitComplete w) = onExitComplete w
  ∧ isClosing (state (onExitComplete w)) = isClosing (state w).
Proof.
  unfold onExitComplete, onExitComplete_in.
  destruct (isClosing (state w)) eqn:Hclosing; simpl; by rewrite Hclosing.
Qed.

(** X19: a click on any entry of the carousel of the open overlay is a
    switch, never a close: the clicked city becomes the selection, the
    map stays visible and the location becomes the path of that city. *)
Theorem X19_carousel_click_switches w o city :
  open_overlay (render w) = Some o →
  city ∈ embed_key <$> carousel o →
  let w' := handleSelect city w in
  selectedCity (state w') = Some city
  ∧ isMapVisible (state w') = true
  ∧ isClosing (state w') = false
  ∧ location w' = "/map/" +:+ city.
Proof.
  intros Hopen Hin. cbv zeta.
  apply open_overlay_inv in Hopen as (sel & Hsel & _ & _ & ->).
  simpl in Hin. unfold Carousel.render in Hin.
  rewrite embed_key_fmap in Hin.
  change (city ∈ Carousel.displayed (cities (state w)) sel) in Hin.
  rewrite displayed_keep_first in Hin.
  eapply elem_of_sublist in Hin; [|apply sublist_take].
  apply elem_of_keep_first_occurrences, list_elem_of_filter in Hin as [Hne _].
  rewrite handleSelect_other; [done|]. rewrite Hsel. congruence.
Qed.

Lemma X19_carousel_click_witness :
  location (handleSelect "london1" (run (init "/") [Select "leeds1"]))
  = "/map/london1".
Proof.
  apply (X19_carousel_click_switches (run (init "/") [Select "leeds1"])
           (overlay [] "leeds1") "london1").
  - reflexivity.
  - apply (bool_decide_unpack _). by vm_compute.
Defined.

(** X20: opening a city that is not selected, closing it and letting the
    exit finish leads back to the grid: the overlay was open in between,
    and at the end no city is selected, the location is the root, nothing
    of the overlay is rendered and the city list is as before. *)
Theorem X20_open_close_round_trip w city :
  selectedCity (state w) ≠ Some city →
  city ≠ "" →
  open_overlay (render (run w [Select city]))
  = Some (overlay (cities (state w)) city)
  ∧ let w' := run w [Select city; Select city; ExitComplete] in
    selectedCity (state w') = None
    ∧ location w' = "/"
    ∧ presence (render w') = None
    ∧ cities (state w') = cities (state w).
Proof.
  intros Hsel Hne. pose proof (truthy_nonempty city Hne) as Htruthy.
  unfold Js.truthy in Htruthy.
  assert (open_overlay (render (step w (Select city)))
          = Some (overlay (cities (state w)) city)) as Hopen.
  { destruct (step_Select w city) as (_ & _ & ->).
    rewrite (handleSelect_other w city Hsel).
    unfold open_overlay, render; simpl. by rewrite Htruthy. }
  split; [exact Hopen|]. cbv zeta.
  change (run w [Select city; Select city; ExitComplete])
    with (step (step (step w (Select city)) (Select city)) ExitComplete).
  assert (selectedCity (state (step w (Select city))) = Some city) as Hsel1.
  { destruct (step_Select w city) as (-> & _).
    by rewrite (handleSelect_other w city Hsel). }
  pose proof (exiting_after_close _ city _ Hsel1 Hopen) as Hexit.
  destruct (step_ExitComplete _ _ Hexit) as (Hstate & Hloc).
  unfold render. rewrite Hstate, Hloc. simpl.
  repeat split.
  change (cities (state (step (step w (Select city)) (Select city)))
          = cities (state w)).
  destruct (step_frame (step w (Select city)) (Select city)) as (-> & _).
  by destruct (step_frame w (Select city)) as (-> & _).
Qed.

Lemma X20_open_close_witness :
  location (run (init "/") [Select "leeds1"; Select "leeds1"; ExitComplete]) = "/".
Proof.
  apply (X20_open_close_round_trip (init "/") "leeds1"); done.
Defined.

(** X21: a switch made while a close is still animating out is undone
    when that exit ends.  The callback run is the one of the render in
    which the close began, where [isClosing] was set: it clears the
    selection just made and navigates to the root, while [isMapVisible]
    stays set; nothing of the overlay is rendered. *)
Theorem X21_switch_during_close_is_undone w city other previous :
  selectedCity (state w) = Some city →
  open_overlay (render w) = Some previous →
  other ≠ city →
  other ≠ "" →
  let w' := run w [Select city; Select other; ExitComplete] in
  selectedCity (state w') = None
  ∧ location w' = "/"
  ∧ isMapVisible (state w') = true
  ∧ isClosing (state w') = false
  ∧ presence (render w') = None.
Proof.
  intros Hsel Hopen Hother Hne. cbv zeta.
  change (run w [Select city; Select other; ExitComplete])
    with (step (step (step w (Select city)) (Select other)) ExitComplete).
  pose proof (exiting_after_close w city previous Hsel Hopen) as Hexit.
  assert (state (step w (Select city))
          = state (setIsMapVisible false (setIsClosing true w))) as Hclosing.
  { destruct (step_Select w city) as (-> & _).
    by rewrite (handleSelect_same w city Hsel). }
  assert (open_overlay (render (step w (Select city))) = None) as Hnone.
  { unfold open_overlay, render. rewrite Hclosing. simpl.
    by destruct (selectedCity (state w)) as [c|]; [destruct (Js.truthy _)|]. }
  rewrite <- (exiting_kept_without_overlay _ other Hnone Hne) in Hexit.
  destruct (step_ExitComplete _ _ Hexit) as (Hstate & Hloc).
  assert (isMapVisible (state (step (step w (Select city)) (Select other))) = true
          ∧ isClosing (state (step (step w (Select city)) (Select other))) = false)
    as (Hvisible & Hnotclosing).
  { destruct (step_Select (step w (Select city)) other) as (-> & _).
    rewrite handleSelect_other; [done|].
    rewrite Hclosing. simpl. rewrite Hsel. congruence. }
  remember (step (step w (Select city)) (Select other)) as w2.
  unfold render. rewrite Hstate, Hloc. by simpl.
Qed.

Lemma X21_switch_during_close_witness :
  let w' := run (run (init "/") [Select "leeds1"])
              [Select "leeds1"; Select "london3"; ExitComplete] in
  selectedCity (state w') = None
  ∧ location w' = "/"
  ∧ isMapVisible (state w') = true
  ∧ isClosing (state w') = false
  ∧ presence (render w') = None.
Proof.
  apply (X21_switch_during_close_is_undone
           (run (init "/") [Select "leeds1"]) "leeds1" "london3"
           (overlay [] "leeds1")).
  - by vm_compute.
  - by vm_compute.
  - done.
  - done.
Defined.

End SelectionFacts.
